(** * Credential verification and rate limiting (server/auth.ts)

    A shallow embedding of the rate limiter and of the credential verifier
    of [server/auth.ts], and the properties the specification states about
    them.

    Conventions of the embedding.
    - JavaScript numbers that hold timestamps (milliseconds, [Date.now()])
      and counters are integers far inside the range in which IEEE doubles
      are exact; they are modelled as [Z].  On that range
      [Math.ceil (x / 1000)] is the integer ceiling of the quotient.
    - The module-level [rateLimitStore : Map<string, RateLimitEntry>] is a
      [gmap string RateLimitEntry], threaded explicitly through every
      operation.  [Date.now()] is the extra argument [now].
    - An optional field ([blockedUntil?: number], [retryAfter?: number]) is
      an [option]; [undefined] is [None].
    - [bcrypt] is an external library: its two entry points are the fields of
      the class [Bcrypt]. *)

From stdpp Require Import gmap strings list fin_maps.
From Stdlib Require Import ZArith Lia Ascii.

Local Open Scope Z_scope.

(** ** JavaScript primitives used by the module *)

(** Truthiness of a [number | undefined]: [undefined] and [0] are falsy. *)
Definition truthy_num (v : option Z) : bool :=
  match v with
  | Some n => negb (n =? 0)
  | None => false
  end.

(** Truthiness of a [string | undefined]: [undefined] and the empty string
    are falsy. *)
Definition truthy_str (v : option string) : bool :=
  match v with
  | Some EmptyString => false
  | Some _ => true
  | None => false
  end.

(** [Math.ceil (x / 1000)] on an integer [x]. *)
Definition ceil_div_1000 (x : Z) : Z := - ((- x) / 1000).

(** ** Rate limiter: data model *)

Record RateLimitEntry : Type := mkEntry {
  attempts : Z;
  lastAttempt : Z;
  blockedUntil : option Z
}.

Definition MAX_ATTEMPTS : Z := 5.
Definition WINDOW_MS : Z := 15 * 60 * 1000.
Definition BLOCK_DURATION_MS : Z := 30 * 60 * 1000.

(** The result object [{ allowed: boolean; retryAfter?: number }]. *)
Record CheckResult : Type := mkResult {
  allowed : bool;
  retryAfter : option Z
}.

(** ** Rate limiter: the tests the code performs on an entry *)

(** [entry.blockedUntil && entry.blockedUntil < now] (sweep). *)
Definition block_lapsed (now : Z) (entry : RateLimitEntry) : bool :=
  truthy_num (blockedUntil entry) &&
  match blockedUntil entry with Some b => b <? now | None => false end.

(** [entry.blockedUntil && entry.blockedUntil > now] (check). *)
Definition block_active (now : Z) (entry : RateLimitEntry) : bool :=
  truthy_num (blockedUntil entry) &&
  match blockedUntil entry with Some b => b >? now | None => false end.

(** [now - entry.lastAttempt > WINDOW_MS]. *)
Definition window_passed (now : Z) (entry : RateLimitEntry) : bool :=
  now - lastAttempt entry >? WINDOW_MS.

(** ** Rate limiter: operations *)

(** One callback invocation of the [forEach] in [cleanupRateLimitStore]. *)
Definition cleanup_step (now : Z) (key : string) (entry : RateLimitEntry)
    (store : gmap string RateLimitEntry) : gmap string RateLimitEntry :=
  if block_lapsed now entry then delete key store
  else if window_passed now entry then delete key store
  else store.

(** [cleanupRateLimitStore]: the callback runs once for every entry of the
    map and deletes from that same map. *)
Definition cleanupRateLimitStore (now : Z)
    (store : gmap string RateLimitEntry) : gmap string RateLimitEntry :=
  map_fold (cleanup_step now) store store.

Definition checkRateLimit (now : Z) (ip : string)
    (store : gmap string RateLimitEntry)
    : CheckResult * gmap string RateLimitEntry :=
  match store !! ip with
  | None => (mkResult true None, store)
  | Some entry =>
      if block_active now entry then
        match blockedUntil entry with
        | Some b => (mkResult false (Some (ceil_div_1000 (b - now))), store)
        | None => (mkResult true None, store) (* not reached: the test
                                                  fails on a missing field *)
        end
      else if window_passed now entry then
        (mkResult true None, delete ip store)
      else if attempts entry >=? MAX_ATTEMPTS then
        (mkResult false (Some (ceil_div_1000 BLOCK_DURATION_MS)),
         <[ip := mkEntry (attempts entry) (lastAttempt entry)
                         (Some (now + BLOCK_DURATION_MS))]> store)
      else (mkResult true None, store)
  end.

Definition recordFailedAttempt (now : Z) (ip : string)
    (store : gmap string RateLimitEntry) : gmap string RateLimitEntry :=
  match store !! ip with
  | None => <[ip := mkEntry 1 now None]> store
  | Some entry =>
      <[ip := mkEntry (attempts entry + 1) now (blockedUntil entry)]> store
  end.

Definition resetRateLimit (ip : string)
    (store : gmap string RateLimitEntry) : gmap string RateLimitEntry :=
  delete ip store.

(** ** Rate limiter: the subsystem as a transition system *)

(** The four ways the store is ever touched. *)
Inductive Op : Type :=
  | OpCheck (now : Z) (ip : string)
  | OpRecord (now : Z) (ip : string)
  | OpReset (ip : string)
  | OpSweep (now : Z).

Definition run (op : Op) (store : gmap string RateLimitEntry)
    : gmap string RateLimitEntry :=
  match op with
  | OpCheck now ip => (checkRateLimit now ip store).2
  | OpRecord now ip => recordFailedAttempt now ip store
  | OpReset ip => resetRateLimit ip store
  | OpSweep now => cleanupRateLimitStore now store
  end.

(** The clock reading an operation makes, if it makes one. *)
Definition op_clock (op : Op) : option Z :=
  match op with
  | OpCheck now _ | OpRecord now _ | OpSweep now => Some now
  | OpReset _ => None
  end.

(** [Date.now()] counts milliseconds from the epoch: it is not negative. *)
Definition clock_ok (op : Op) : Prop :=
  match op_clock op with Some now => 0 <= now | None => True end.

(** Stores the process can be in: the map starts empty and changes only
    through the four operations.  Nothing is assumed about the order of the
    clock readings. *)
Inductive reachable : gmap string RateLimitEntry → Prop :=
  | reach_init : reachable ∅
  | reach_step op store :
      reachable store → clock_ok op → reachable (run op store).

(** What the text of the specification calls an active lockout and a stale
    entry. *)
Definition lockout_active (now : Z) (entry : RateLimitEntry) : Prop :=
  ∃ b, blockedUntil entry = Some b ∧ now < b.

Definition lockout_expired (now : Z) (entry : RateLimitEntry) : Prop :=
  ∃ b, blockedUntil entry = Some b ∧ b < now.

Definition window_elapsed (now : Z) (entry : RateLimitEntry) : Prop :=
  WINDOW_MS < now - lastAttempt entry.

(** A request with a wrong password, as the specification describes the
    flow: the limiter is asked first and the failure is recorded after. *)
Definition failed_request (now : Z) (ip : string)
    (store : gmap string RateLimitEntry) : gmap string RateLimitEntry :=
  recordFailedAttempt now ip (checkRateLimit now ip store).2.

(** Five failures of client A inside a minute, one of client B in
    between. *)
Definition five_failures : gmap string RateLimitEntry :=
  failed_request 50000 "A" (failed_request 40000 "A" (failed_request 30000 "A"
    (failed_request 25000 "B"
      (failed_request 20000 "A" (failed_request 10000 "A" ∅))))).

(** What every entry of a reachable store satisfies: it counts at least one
    failure, and a lockout is only ever found on an entry whose counter has
    reached the threshold, with an expiry no earlier than one lockout
    duration after the epoch. *)
Definition entry_inv (entry : RateLimitEntry) : Prop :=
  1 <= attempts entry ∧
  ∀ b, blockedUntil entry = Some b →
       MAX_ATTEMPTS <= attempts entry ∧ BLOCK_DURATION_MS <= b.

Definition store_inv (store : gmap string RateLimitEntry) : Prop :=
  ∀ ip entry, store !! ip = Some entry → entry_inv entry.

(** ** Credential verifier: effects

    The functions are [async]: a call ends in a promise that is fulfilled
    with a value or rejected with an error.  What they do to the outside is
    recorded as a trace of events, oldest first: lines written to the
    console and calls into bcrypt.  The module state they run in also holds
    the rate-limit store, which they share with the limiter. *)

Inductive outcome (A : Type) : Type :=
  | Fulfilled (a : A)
  | Rejected (err : string).
Arguments Fulfilled {A} a.
Arguments Rejected {A} err.

Inductive event : Type :=
  | ConsoleError (msg : string)
  | ConsoleLog (msg : string)
  | CallCompare (data hash : string)
  | CallHash (data : string) (rounds : Z).

Record World : Type := mkWorld {
  rateLimitStore : gmap string RateLimitEntry;
  trace : list event
}.

Definition emit (e : event) (w : World) : World :=
  mkWorld (rateLimitStore w) (trace w ++ [e]).

Definition Async (A : Type) : Type := World → outcome A * World.

#[global] Instance async_ret : MRet Async := λ A a w, (Fulfilled a, w).

#[global] Instance async_bind : MBind Async := λ A B k m w,
  match m w with
  | (Fulfilled a, w') => k a w'
  | (Rejected err, w') => (Rejected err, w')
  end.

(** [try { body } catch (error) { handler }]. *)
Definition try_catch {A} (body : Async A) (handler : string → Async A)
    : Async A :=
  λ w, match body w with
       | (Fulfilled a, w') => (Fulfilled a, w')
       | (Rejected err, w') => handler err w'
       end.

Definition console_error (msg : string) : Async unit :=
  λ w, (Fulfilled tt, emit (ConsoleError msg) w).

Definition console_log (msg : string) : Async unit :=
  λ w, (Fulfilled tt, emit (ConsoleLog msg) w).

(** The bcrypt library.  [hash] draws a fresh salt on every call; the draw
    is the argument [salt].  Either call may reject. *)
Class Bcrypt : Type := {
  Salt : Type;
  bcrypt_hash : string → Z → Salt → outcome string;
  bcrypt_compare : string → string → outcome bool
}.

(** The contract of the library this module relies on: a hash is a
    non-empty string, and the data a hash was made from compares equal to
    it. *)
Class BcryptSound (B : Bcrypt) : Prop := {
  hash_nonempty data rounds salt h :
    bcrypt_hash data rounds salt = Fulfilled h → h ≠ EmptyString;
  compare_hash data rounds salt h :
    bcrypt_hash data rounds salt = Fulfilled h →
    bcrypt_compare data h = Fulfilled true
}.

(** The three variables of [process.env] the module reads. *)
Record Env : Type := mkEnv {
  ADMIN_PASSWORD_HASH : option string;
  NODE_ENV : option string;
  ADMIN_PASSWORD : option string
}.

(** ** Credential verifier: operations *)

Section Verifier.
Context {B : Bcrypt}.

Definition await_compare (data hash : string) : Async bool :=
  λ w, (bcrypt_compare data hash, emit (CallCompare data hash) w).

Definition await_hash (data : string) (rounds : Z) (salt : Salt)
    : Async string :=
  λ w, (bcrypt_hash data rounds salt, emit (CallHash data rounds) w).

Definition verifyPassword (env : Env) (password : string) : Async bool :=
  if negb (truthy_str (ADMIN_PASSWORD_HASH env)) then
    console_error "ADMIN_PASSWORD_HASH not configured in environment" ;;
    mret false
  else
    let passwordHash := default EmptyString (ADMIN_PASSWORD_HASH env) in
    try_catch
      (if bool_decide (NODE_ENV env = Some "development")
          && truthy_str (ADMIN_PASSWORD env)
          && bool_decide (Some password = ADMIN_PASSWORD env)
       then mret true
       else await_compare password passwordHash)
      (λ error,
         console_error ("Password verification error: " +:+ error) ;;
         mret false).

Definition generatePasswordHash (password : string) (salt : Salt)
    : Async string :=
  await_hash password 10 salt.

Definition changePassword (env : Env) (currentPassword newPassword : string)
    (salt : Salt) : Async bool :=
  isValid ← verifyPassword env currentPassword ;
  if negb isValid then mret false
  else
    newHash ← generatePasswordHash newPassword salt ;
    console_log "New password hash (update in .env.production):" ;;
    console_log newHash ;;
    mret true.
End Verifier.

(** A small executable stand-in for the library, used to run the verifier
    on concrete inputs: a hash is a marker, the one-character salt and the
    data in the clear. *)
Definition toy_hash (data : string) (rounds : Z) (salt : Ascii.ascii)
    : outcome string :=
  Fulfilled (String "$"%char (String salt data)).

Definition toy_compare (data hash : string) : outcome bool :=
  match hash with
  | String c (String _ payload) =>
      if Ascii.eqb c "$"%char then Fulfilled (String.eqb data payload)
      else Rejected "invalid hash"
  | _ => Rejected "invalid hash"
  end.

Definition toy_bcrypt : Bcrypt :=
  {| Salt := Ascii.ascii;
     bcrypt_hash := toy_hash;
     bcrypt_compare := toy_compare |}.

(** A second stand-in, whose hashing always fails; it compares like the
    first. *)
Definition failing_hash_bcrypt : Bcrypt :=
  {| Salt := Ascii.ascii;
     bcrypt_hash := λ _ _ _, Rejected "hashing failed";
     bcrypt_compare := toy_compare |}.

(** The events by which a new hash would come into being or leave the
    module: a call of [bcrypt.hash] and a line on [console.log]. *)
Definition hash_event (e : event) : bool :=
  match e with
  | CallHash _ _ | ConsoleLog _ => true
  | ConsoleError _ | CallCompare _ _ => false
  end.

(** No secret hash is configured: the variable is unset or empty. *)
Definition hash_unconfigured (env : Env) : Prop :=
  ADMIN_PASSWORD_HASH env = None ∨ ADMIN_PASSWORD_HASH env = Some EmptyString.

(** ** Rate limiter: compositions used in the further properties *)

(** The client an operation is about; the sweep is about none. *)
Definition op_client (op : Op) : option string :=
  match op with
  | OpCheck _ ip | OpRecord _ ip | OpReset ip => Some ip
  | OpSweep _ => None
  end.

(** [recordFailedAttempt] called once per clock reading of [times], in
    order, for one client. *)
Definition recordFailedAttempts (times : list Z) (ip : string)
    (store : gmap string RateLimitEntry) : gmap string RateLimitEntry :=
  foldl (λ acc now, recordFailedAttempt now ip acc) store times.

(** ** Rate limiter: histories *)

(** A history of operations, oldest first, run on a store. *)
Definition run_ops (ops : list Op) (store : gmap string RateLimitEntry)
    : gmap string RateLimitEntry :=
  foldl (λ acc op, run op acc) store ops.




(** The client has an entry after every operation of the history: none of
    them deletes it. *)
Fixpoint entry_kept (ip : string) (ops : list Op)
    (store : gmap string RateLimitEntry) : bool :=
  match ops with
  | [] => true
  | op :: ops' =>
      match run op store !! ip with
      | Some _ => entry_kept ip ops' (run op store)
      | None => false
      end
  end.

(** ** Credential verifier: the development fallback, as a proposition *)

(** The plaintext fallback applies: the process runs in development mode
    and the candidate is the configured, non-empty [ADMIN_PASSWORD]. *)
Definition plaintext_fallback (env : Env) (password : string) : Prop :=
  NODE_ENV env = Some "development" ∧
  ADMIN_PASSWORD env = Some password ∧
  password ≠ EmptyString.

(** What [bcrypt.compare] decides, an error counting as a mismatch. *)
Definition compare_verdict (r : outcome bool) : bool :=
  match r with
  | Fulfilled b => b
  | Rejected _ => false
  end.

(** ** Statistics card: the image counter

    [countImages] of the [StatisticsCards] component:
    [rows.reduce((count, row) => count + row.images.length, 0)].  The type
    [TableRow] comes from the shared schema; all the function uses of it is
    the array [images], taken here as a projection. *)

Section Statistics.
Context {Row Image : Type} (images : Row → list Image).

Definition countImages (rows : list Row) : nat :=
  foldl (λ count row, (count + length (images row))%nat) 0%nat rows.
End Statistics.

(** ** Change-password dialog: the submit handler

    [handleSubmit] of the [ChangePasswordModal] component.  A string of the
    form is a Rocq string, one character for one code unit; the handler
    only tests strings for emptiness and equality and takes their length.
    What the two [fetch] calls come back with is the input [Network]; what
    the handler does is the list of its effects, in order. *)

(** What [changeResponse.json()] gives when the response is not ok:
    [JsonRejects] when it rejects, or yields [null], on which reading
    [message] throws; [JsonObject] when it yields an object, whose
    [message] may be missing. *)
Inductive JsonBody : Type :=
  | JsonRejects
  | JsonObject (message : option string).

Inductive VerifyReply : Type :=
  | VerifyFetchRejects
  | VerifyResponse (ok : bool).

Inductive ChangeReply : Type :=
  | ChangeFetchRejects
  | ChangeResponse (ok : bool) (body : JsonBody).

Record Network : Type := mkNetwork {
  verifyReply : VerifyReply;
  changeReply : ChangeReply
}.

Record Form : Type := mkForm {
  currentPassword : string;
  newPassword : string;
  confirmPassword : string
}.

Inductive UiEvent : Type :=
  | PreventDefault
  | Toast (title description : string) (destructive : bool)
  | SetIsLoading (loading : bool)
  | FetchVerify (password : string)
  | FetchChange (current proposed : string)
  | SetCurrentPassword (value : string)
  | SetNewPassword (value : string)
  | SetConfirmPassword (value : string)
  | OnOpenChange (open : bool).

Definition error_toast (description : string) : UiEvent :=
  Toast "Error" description true.

(** [!s] on a string. *)
Definition is_empty (s : string) : bool :=
  match s with EmptyString => true | _ => false end.

(** The statements after the first [fetch] has come back ok, up to the end
    of the [try] block or the [catch] clause. *)
Definition submit_change (form : Form) (net : Network) : list UiEvent :=
  FetchChange (currentPassword form) (newPassword form) ::
  match changeReply net with
  | ChangeFetchRejects => [error_toast "An unexpected error occurred"]
  | ChangeResponse false JsonRejects =>
      [error_toast "An unexpected error occurred"]
  | ChangeResponse false (JsonObject message) =>
      [error_toast (if truthy_str message
                    then default EmptyString message
                    else "Failed to change password");
       SetIsLoading false]
  | ChangeResponse true _ =>
      [Toast "Success" "Password changed successfully!" false;
       SetCurrentPassword EmptyString;
       SetNewPassword EmptyString;
       SetConfirmPassword EmptyString;
       OnOpenChange false]
  end.

(** The [try] block with its [catch] clause. *)
Definition submit_try (form : Form) (net : Network) : list UiEvent :=
  FetchVerify (currentPassword form) ::
  match verifyReply net with
  | VerifyFetchRejects => [error_toast "An unexpected error occurred"]
  | VerifyResponse false =>
      [error_toast "Current password is incorrect"; SetIsLoading false]
  | VerifyResponse true => submit_change form net
  end.

Definition handleSubmit (form : Form) (net : Network) : list UiEvent :=
  PreventDefault ::
  if is_empty (currentPassword form) || is_empty (newPassword form)
     || is_empty (confirmPassword form)
  then [error_toast "Please fill in all fields"]
  else if negb (String.eqb (newPassword form) (confirmPassword form))
  then [error_toast "New password and confirm password do not match"]
  else if (String.length (newPassword form) <? 6)%nat
  then [error_toast "New password must be at least 6 characters long"]
  else
    SetIsLoading true :: submit_try form net ++ [SetIsLoading false].

(** Classifiers of effects. *)
Definition is_toast (e : UiEvent) : bool :=
  match e with Toast _ _ _ => true | _ => false end.

Definition is_success_toast (e : UiEvent) : bool :=
  match e with Toast _ _ destructive => negb destructive | _ => false end.

(** The form passes the three tests made before any request. *)
Definition form_valid (form : Form) : Prop :=
  currentPassword form ≠ EmptyString ∧
  newPassword form ≠ EmptyString ∧
  confirmPassword form ≠ EmptyString ∧
  newPassword form = confirmPassword form ∧
  (6 <= String.length (newPassword form))%nat.

(** ** Client entry point: the reload guard

    The [controllerchange] listener of [main.tsx] with its flag
    [refreshing]: the state is the flag, an event gives the new flag and
    whether [window.location.reload()] is called. *)
Definition on_controllerchange (refreshing : bool) : bool * bool :=
  if negb refreshing then (true, true) else (refreshing, false).

(** The listener run on [n] events in a row, from a given flag: the final
    flag and the number of calls of [reload]. *)
Fixpoint controllerchanges (n : nat) (refreshing : bool) : bool * nat :=
  match n with
  | O => (refreshing, O)
  | S n' =>
      let '(refreshing', reloaded) := on_controllerchange refreshing in
      let '(final, count) := controllerchanges n' refreshing' in
      (final, ((if reloaded then 1 else 0) + count)%nat)
  end.

(** * Properties *)

(** ** Arithmetic of the retry delay *)

Lemma ceil_div_1000_block : ceil_div_1000 BLOCK_DURATION_MS = 1800.
Proof. reflexivity. Qed.

Lemma ceil_div_1000_pos x : 0 < x → 1 <= ceil_div_1000 x.
Proof.
  intros Hx. unfold ceil_div_1000.
  assert ((- x) / 1000 < 0) by (apply Z.div_lt_upper_bound; lia).
  lia.
Qed.

(** ** The tests on an entry, read as propositions *)

Lemma block_active_true now entry :
  block_active now entry = true →
  ∃ b, blockedUntil entry = Some b ∧ now < b.
Proof.
  unfold block_active. destruct (blockedUntil entry) as [b|]; simpl.
  - intros [_ H]%andb_true_iff. exists b. split; [done | lia].
  - done.
Qed.

Lemma block_active_false now entry :
  ¬ lockout_active now entry → block_active now entry = false.
Proof.
  intros Hn. destruct (block_active now entry) eqn:E; [| done].
  destruct Hn. by apply block_active_true.
Qed.

Lemma window_passed_spec now entry :
  window_passed now entry = true ↔ window_elapsed now entry.
Proof. unfold window_passed, window_elapsed. lia. Qed.

Lemma block_lapsed_spec now entry :
  (∀ b, blockedUntil entry = Some b → b ≠ 0) →
  block_lapsed now entry = true ↔ lockout_expired now entry.
Proof.
  intros Hnz. unfold block_lapsed, lockout_expired.
  destruct (blockedUntil entry) as [b|]; simpl.
  - specialize (Hnz b eq_refl). split.
    + intros [_ H]%andb_true_iff. exists b. split; [done | lia].
    + intros (b' & [= <-] & H). apply andb_true_iff. split; lia.
  - split; [done | by intros (? & ? & ?)].
Qed.

(** ** How each operation changes the map, key by key *)

Lemma checkRateLimit_other now ip store k :
  k ≠ ip → (checkRateLimit now ip store).2 !! k = store !! k.
Proof.
  intros Hk. unfold checkRateLimit.
  destruct (store !! ip) as [entry|]; [| done].
  destruct (block_active now entry).
  { by destruct (blockedUntil entry). }
  destruct (window_passed now entry); simpl.
  { by rewrite lookup_delete_ne. }
  destruct (attempts entry >=? MAX_ATTEMPTS); simpl; [| done].
  by rewrite lookup_insert_ne.
Qed.

Lemma checkRateLimit_same now ip store :
  (checkRateLimit now ip store).2 !! ip =
  entry ← store !! ip;
  if block_active now entry then Some entry
  else if window_passed now entry then None
  else if attempts entry >=? MAX_ATTEMPTS then
    Some (mkEntry (attempts entry) (lastAttempt entry)
                  (Some (now + BLOCK_DURATION_MS)))
  else Some entry.
Proof.
  unfold checkRateLimit.
  destruct (store !! ip) as [entry|] eqn:Hip; simpl; [| done].
  destruct (block_active now entry).
  { by destruct (blockedUntil entry). }
  destruct (window_passed now entry); simpl.
  { apply lookup_delete_eq. }
  destruct (attempts entry >=? MAX_ATTEMPTS); simpl; [| done].
  apply lookup_insert_eq.
Qed.

Lemma recordFailedAttempt_other now ip store k :
  k ≠ ip → recordFailedAttempt now ip store !! k = store !! k.
Proof.
  intros Hk. unfold recordFailedAttempt.
  destruct (store !! ip); by rewrite lookup_insert_ne.
Qed.

Lemma recordFailedAttempt_same now ip store :
  recordFailedAttempt now ip store !! ip =
  Some match store !! ip with
       | Some entry => mkEntry (attempts entry + 1) now (blockedUntil entry)
       | None => mkEntry 1 now None
       end.
Proof.
  unfold recordFailedAttempt.
  destruct (store !! ip); by rewrite lookup_insert_eq.
Qed.

(** The sweep, started on any accumulator: a key visited by the fold is
    deleted when its entry fails one of the two tests and is otherwise
    left as the accumulator has it. *)
Lemma cleanup_fold_lookup now (acc visited : gmap string RateLimitEntry) k :
  map_fold (cleanup_step now) acc visited !! k =
  match visited !! k with
  | Some entry =>
      if block_lapsed now entry || window_passed now entry then None
      else acc !! k
  | None => acc !! k
  end.
Proof.
  revert k.
  apply (map_fold_weak_ind (λ r m, ∀ k, r !! k =
    match m !! k with
    | Some entry =>
        if block_lapsed now entry || window_passed now entry then None
        else acc !! k
    | None => acc !! k
    end)).
  - intros k. by rewrite lookup_empty.
  - intros i x m r Hi IH k. unfold cleanup_step.
    destruct (decide (k = i)) as [->|Hne].
    + rewrite lookup_insert_eq. specialize (IH i). rewrite Hi in IH.
      destruct (block_lapsed now x); simpl.
      { by rewrite lookup_delete_eq. }
      destruct (window_passed now x); simpl; [by rewrite lookup_delete_eq|].
      done.
    + rewrite lookup_insert_ne by done. rewrite <- IH.
      destruct (block_lapsed now x); [by rewrite lookup_delete_ne|].
      destruct (window_passed now x); [by rewrite lookup_delete_ne|done].
Qed.

Lemma cleanup_lookup now store k :
  cleanupRateLimitStore now store !! k =
  match store !! k with
  | Some entry =>
      if block_lapsed now entry || window_passed now entry then None
      else Some entry
  | None => None
  end.
Proof.
  unfold cleanupRateLimitStore. rewrite cleanup_fold_lookup.
  destruct (store !! k) eqn:E; done.
Qed.

(** ** The invariant of reachable stores *)

Lemma store_inv_empty : store_inv ∅.
Proof. intros ip entry. by rewrite lookup_empty. Qed.

Lemma store_inv_delete ip store : store_inv store → store_inv (delete ip store).
Proof.
  intros Hinv k entry Hk. apply lookup_delete_Some in Hk as [_ Hk].
  by eapply Hinv.
Qed.

Lemma store_inv_insert ip entry store :
  entry_inv entry → store_inv store → store_inv (<[ip := entry]> store).
Proof.
  intros He Hinv k entry' Hk.
  apply lookup_insert_Some in Hk as [[_ <-] | [_ Hk]]; [done |].
  by eapply Hinv.
Qed.

Lemma store_inv_check now ip store :
  0 <= now → store_inv store → store_inv (checkRateLimit now ip store).2.
Proof.
  intros Hnow Hinv. unfold checkRateLimit.
  destruct (store !! ip) as [entry|] eqn:Hip; [| done].
  destruct (block_active now entry).
  { by destruct (blockedUntil entry). }
  destruct (window_passed now entry); simpl.
  { by apply store_inv_delete. }
  destruct (attempts entry >=? MAX_ATTEMPTS) eqn:Hge; simpl; [| done].
  apply store_inv_insert; [| done].
  split; simpl.
  - unfold MAX_ATTEMPTS in Hge. lia.
  - intros b [= <-]. unfold MAX_ATTEMPTS in *. lia.
Qed.

Lemma store_inv_record now ip store :
  store_inv store → store_inv (recordFailedAttempt now ip store).
Proof.
  intros Hinv. unfold recordFailedAttempt.
  destruct (store !! ip) as [entry|] eqn:Hip.
  - apply store_inv_insert; [| done].
    destruct (Hinv _ _ Hip) as [H1 Hb]. split; simpl; [lia |].
    intros b Hbu. destruct (Hb b Hbu). lia.
  - apply store_inv_insert; [| done]. split; simpl; [lia | done].
Qed.

Lemma store_inv_cleanup now store :
  store_inv store → store_inv (cleanupRateLimitStore now store).
Proof.
  intros Hinv k entry. rewrite cleanup_lookup.
  destruct (store !! k) as [e|] eqn:Hk; [| done].
  destruct (block_lapsed now e || window_passed now e); [done |].
  intros [= <-]. by eapply Hinv.
Qed.

Lemma store_inv_run op store :
  clock_ok op → store_inv store → store_inv (run op store).
Proof.
  destruct op as [now ip | now ip | ip | now]; simpl; intros Hc Hinv.
  - by apply store_inv_check.
  - by apply store_inv_record.
  - by apply store_inv_delete.
  - by apply store_inv_cleanup.
Qed.

Lemma reachable_inv store : reachable store → store_inv store.
Proof.
  induction 1 as [| op store _ IH Hc].
  - apply store_inv_empty.
  - by apply store_inv_run.
Qed.

(** ** The claims about the rate limiter *)

(** C1 (lazy lockout installation).  For a client whose entry carries no
    active lockout, whose last attempt is inside the window and whose
    counter has reached the threshold of 5, [checkRateLimit] stores
    [blockedUntil = now + BLOCK_DURATION_MS] in that entry, leaving its
    other fields as they were, and answers not allowed with a retry delay
    of 1800 seconds, which is the lockout duration in seconds. *)
Theorem check_installs_lockout now ip store entry :
  store !! ip = Some entry →
  ¬ lockout_active now entry →
  ¬ window_elapsed now entry →
  MAX_ATTEMPTS <= attempts entry →
  (checkRateLimit now ip store).1 = mkResult false (Some 1800) ∧
  1800 * 1000 = BLOCK_DURATION_MS ∧
  (checkRateLimit now ip store).2 !! ip =
    Some (mkEntry (attempts entry) (lastAttempt entry)
                  (Some (now + BLOCK_DURATION_MS))).
Proof.
  intros Hip Hblk Hwin Hatt. unfold checkRateLimit. rewrite Hip.
  rewrite (block_active_false _ _ Hblk).
  destruct (window_passed now entry) eqn:Hw.
  { by apply window_passed_spec in Hw. }
  replace (attempts entry >=? MAX_ATTEMPTS) with true by lia.
  simpl. rewrite lookup_insert_eq. by rewrite ceil_div_1000_block.
Qed.

Lemma check_installs_lockout_witness :
  let store := <["10.0.0.1" := mkEntry 5 60000 None]> ∅ in
  (checkRateLimit 61000 "10.0.0.1" store).1 = mkResult false (Some 1800) ∧
  1800 * 1000 = BLOCK_DURATION_MS ∧
  (checkRateLimit 61000 "10.0.0.1" store).2 !! "10.0.0.1" =
    Some (mkEntry 5 60000 (Some (61000 + BLOCK_DURATION_MS))).
Proof.
  apply (check_installs_lockout 61000 "10.0.0.1"
           (<["10.0.0.1" := mkEntry 5 60000 None]> ∅) (mkEntry 5 60000 None)).
  - reflexivity.
  - intros (b & Hb & _). discriminate Hb.
  - unfold window_elapsed, WINDOW_MS. simpl. lia.
  - unfold MAX_ATTEMPTS. simpl. lia.
Defined.





(** C7 (stale-window restart).  For a client whose last attempt is older
    than the window and whose lockout, if it has one, is not in the future,
    [checkRateLimit] deletes the entry and answers allowed; a failure
    recorded next for that client, at any later reading of the clock,
    creates a fresh entry whose counter is 1 and which carries no lockout. *)
Theorem stale_window_restart now ip store entry :
  store !! ip = Some entry →
  window_elapsed now entry →
  ¬ lockout_active now entry →
  checkRateLimit now ip store = (mkResult true None, delete ip store) ∧
  (checkRateLimit now ip store).2 !! ip = None ∧
  ∀ now', recordFailedAttempt now' ip (checkRateLimit now ip store).2 !! ip
          = Some (mkEntry 1 now' None).
Proof.
  intros Hip Hwin Hblk.
  assert (checkRateLimit now ip store = (mkResult true None, delete ip store))
    as Hcheck.
  { unfold checkRateLimit. rewrite Hip, (block_active_false _ _ Hblk).
    apply window_passed_spec in Hwin. by rewrite Hwin. }
  rewrite Hcheck. simpl. split; [done |].
  split; [apply lookup_delete_eq |].
  intros now'. by rewrite recordFailedAttempt_same, lookup_delete_eq.
Qed.

Lemma stale_window_restart_witness :
  let store := <["10.0.0.1" := mkEntry 4 0 (Some 1000)]> ∅ in
  checkRateLimit 1000000 "10.0.0.1" store
    = (mkResult true None, delete "10.0.0.1" store) ∧
  (checkRateLimit 1000000 "10.0.0.1" store).2 !! "10.0.0.1" = None ∧
  ∀ now', recordFailedAttempt now' "10.0.0.1"
            (checkRateLimit 1000000 "10.0.0.1" store).2 !! "10.0.0.1"
          = Some (mkEntry 1 now' None).
Proof.
  apply (stale_window_restart 1000000 "10.0.0.1"
           (<["10.0.0.1" := mkEntry 4 0 (Some 1000)]> ∅)
           (mkEntry 4 0 (Some 1000))).
  - reflexivity.
  - unfold window_elapsed, WINDOW_MS. simpl. lia.
  - intros (b & Hb & Hlt). simpl in Hb. injection Hb as <-. lia.
Defined.

(** C8 (reset clears a lockout).  In every store, [resetRateLimit] removes
    the client's entry, whether or not it carries a lockout that is still
    running, and a [checkRateLimit] for that client made directly on the
    resulting store answers allowed, with no retry delay, and changes
    nothing. *)
Theorem reset_then_check_allowed now ip store :
  resetRateLimit ip store !! ip = None ∧
  checkRateLimit now ip (resetRateLimit ip store)
    = (mkResult true None, resetRateLimit ip store).
Proof.
  assert (resetRateLimit ip store !! ip = None) as Hgone
    by apply lookup_delete_eq.
  split; [done |]. unfold checkRateLimit. by rewrite Hgone.
Qed.

(** C9 (sweep correctness).  One run of [cleanupRateLimitStore] over a
    reachable store removes an entry exactly when its lockout expiry lies
    before the clock reading or its last attempt is older than the window,
    the latter also while a lockout is still running; every other entry is
    kept as it is, and no entry appears. *)
Theorem sweep_exact now ip store :
  reachable store →
  (store !! ip = None → cleanupRateLimitStore now store !! ip = None) ∧
  (∀ entry, store !! ip = Some entry →
     (lockout_expired now entry ∨ window_elapsed now entry →
      cleanupRateLimitStore now store !! ip = None) ∧
     (¬ (lockout_expired now entry ∨ window_elapsed now entry) →
      cleanupRateLimitStore now store !! ip = Some entry)).
Proof.
  intros Hreach. rewrite cleanup_lookup. split.
  { by intros ->. }
  intros entry Hip. rewrite Hip.
  assert (∀ b, blockedUntil entry = Some b → b ≠ 0) as Hnz.
  { intros b Hb. destruct (reachable_inv _ Hreach _ _ Hip) as [_ Hblk].
    destruct (Hblk b Hb). unfold BLOCK_DURATION_MS in *. lia. }
  pose proof (block_lapsed_spec now entry Hnz) as Hlapsed.
  pose proof (window_passed_spec now entry) as Hpassed.
  destruct (block_lapsed now entry) eqn:E1; simpl.
  { split; [done |]. intros Hn. destruct Hn. left. by apply Hlapsed. }
  destruct (window_passed now entry) eqn:E2.
  { split; [done |]. intros Hn. destruct Hn. right. by apply Hpassed. }
  split; [| done].
  intros [H | H]; [apply Hlapsed in H | apply Hpassed in H]; done.
Qed.

(** C10 (shape of the answer).  Whenever [checkRateLimit] answers not
    allowed, the answer carries a retry delay of at least one second;
    whenever it answers allowed, the answer carries no retry delay. *)
Theorem check_result_shape now ip store :
  if allowed (checkRateLimit now ip store).1
  then retryAfter (checkRateLimit now ip store).1 = None
  else ∃ n, retryAfter (checkRateLimit now ip store).1 = Some n ∧ 1 <= n.
Proof.
  unfold checkRateLimit.
  destruct (store !! ip) as [entry|]; [| done].
  destruct (block_active now entry) eqn:Hact.
  { apply block_active_true in Hact as (b & -> & Hlt). simpl.
    eexists. split; [done |]. apply ceil_div_1000_pos. lia. }
  destruct (window_passed now entry); [done |].
  destruct (attempts entry >=? MAX_ATTEMPTS); [| done].
  simpl. eexists. split; [done |]. rewrite ceil_div_1000_block. lia.
Qed.



Lemma sweep_exact_witness :
  let store := run (OpCheck 70000 "10.0.0.1")
                 (run (OpRecord 60000 "10.0.0.1") ∅) in
  (store !! "10.0.0.1" = None →
   cleanupRateLimitStore 2000000 store !! "10.0.0.1" = None) ∧
  (∀ entry, store !! "10.0.0.1" = Some entry →
     (lockout_expired 2000000 entry ∨ window_elapsed 2000000 entry →
      cleanupRateLimitStore 2000000 store !! "10.0.0.1" = None) ∧
     (¬ (lockout_expired 2000000 entry ∨ window_elapsed 2000000 entry) →
      cleanupRateLimitStore 2000000 store !! "10.0.0.1" = Some entry)).
Proof.
  apply (sweep_exact 2000000 "10.0.0.1").
  apply reach_step; [apply reach_step; [apply reach_init |] |];
    unfold clock_ok; simpl; lia.
Defined.

(** C6 (a lockout expiry never moves back).  Take any of the four
    operations, run at a clock reading that is not negative, and any client
    that has an entry afterwards.  If the client had an entry with
    [blockedUntil] set before, the entry still has it set afterwards, to a
    value that is not smaller: short of deleting the entry, nothing removes
    or lowers it.  And when the operation is [recordFailedAttempt], the
    field afterwards is what it was before, absent for a new entry. *)
Theorem blockedUntil_never_decreases op store ip entry' :
  clock_ok op →
  run op store !! ip = Some entry' →
  (∀ entry b, store !! ip = Some entry → blockedUntil entry = Some b →
     ∃ b', blockedUntil entry' = Some b' ∧ b <= b') ∧
  (∀ now client, op = OpRecord now client →
     blockedUntil entry' = store !! ip ≫= blockedUntil).
Proof.
  intros Hclock Hafter.
  destruct op as [now client | now client | client | now]; simpl in *.
  - split; [| done]. intros entry b Hip Hb.
    destruct (decide (ip = client)) as [-> | Hne].
    + rewrite checkRateLimit_same, Hip in Hafter. simpl in Hafter.
      destruct (block_active now entry) eqn:Hact.
      { injection Hafter as <-. exists b. split; [done | lia]. }
      destruct (window_passed now entry); [done |].
      destruct (attempts entry >=? MAX_ATTEMPTS).
      * injection Hafter as <-. simpl. eexists. split; [done |].
        unfold block_active in Hact. rewrite Hb in Hact. simpl in Hact.
        unfold clock_ok in Hclock. simpl in Hclock.
        unfold BLOCK_DURATION_MS. lia.
      * injection Hafter as <-. exists b. split; [done | lia].
    + rewrite checkRateLimit_other, Hip in Hafter by done.
      injection Hafter as <-. exists b. split; [done | lia].
  - destruct (decide (ip = client)) as [-> | Hne].
    + rewrite recordFailedAttempt_same in Hafter. injection Hafter as <-.
      split.
      * intros entry b Hip Hb. rewrite Hip. simpl.
        exists b. split; [done | lia].
      * intros _ _ _. by destruct (store !! client).
    + rewrite recordFailedAttempt_other in Hafter by done. split.
      * intros entry b Hip Hb. rewrite Hip in Hafter.
        injection Hafter as <-. exists b. split; [done | lia].
      * intros _ _ _. by rewrite Hafter.
  - split; [| done]. intros entry b Hip Hb.
    unfold resetRateLimit in Hafter.
    apply lookup_delete_Some in Hafter as [_ Hafter].
    rewrite Hip in Hafter. injection Hafter as <-.
    exists b. split; [done | lia].
  - split; [| done]. intros entry b Hip Hb.
    rewrite cleanup_lookup, Hip in Hafter.
    destruct (block_lapsed now entry || window_passed now entry); [done |].
    injection Hafter as <-. exists b. split; [done | lia].
Qed.

Lemma blockedUntil_never_decreases_witness :
  let store : gmap string RateLimitEntry :=
    <["10.0.0.1" := mkEntry 6 1000 (Some 2000)]> ∅ in
  (∀ entry b, store !! "10.0.0.1" = Some entry →
     blockedUntil entry = Some b →
     ∃ b', blockedUntil (mkEntry 6 1000 (Some (3000 + BLOCK_DURATION_MS)))
             = Some b' ∧ b <= b') ∧
  (∀ now client, OpCheck 3000 "10.0.0.1" = OpRecord now client →
     blockedUntil (mkEntry 6 1000 (Some (3000 + BLOCK_DURATION_MS)))
       = store !! "10.0.0.1" ≫= blockedUntil).
Proof.
  apply (blockedUntil_never_decreases (OpCheck 3000 "10.0.0.1")
           (<["10.0.0.1" := mkEntry 6 1000 (Some 2000)]> ∅) "10.0.0.1").
  - unfold clock_ok. simpl. lia.
  - reflexivity.
Defined.

(** ** The claims about the credential verifier *)

Section VerifierFacts.
Context {B : Bcrypt}.

(** [verifyPassword] settles with a boolean on every input: an error of
    the comparison is caught.  It leaves the rate-limit store alone and
    neither computes nor prints a hash. *)
Lemma verifyPassword_effects env password w :
  ∃ ok evs,
    verifyPassword env password w
      = (Fulfilled ok, mkWorld (rateLimitStore w) (trace w ++ evs)) ∧
    forallb (λ e, negb (hash_event e)) evs = true.
Proof.
  unfold verifyPassword.
  destruct (truthy_str (ADMIN_PASSWORD_HASH env)); simpl.
  - unfold try_catch.
    destruct (bool_decide (NODE_ENV env = Some "development")
              && truthy_str (ADMIN_PASSWORD env)
              && bool_decide (Some password = ADMIN_PASSWORD env)).
    + exists true, []. rewrite app_nil_r. destruct w.
      split; reflexivity.
    + unfold await_compare.
      destruct (bcrypt_compare password _) as [ok | err].
      * exists ok,
          [CallCompare password
             (default EmptyString (ADMIN_PASSWORD_HASH env))].
        split; reflexivity.
      * exists false,
          [CallCompare password
             (default EmptyString (ADMIN_PASSWORD_HASH env));
           ConsoleError ("Password verification error: " +:+ err)].
        split; [| reflexivity].
        unfold mbind, async_bind, console_error, mret, async_ret, emit.
        simpl. by rewrite <- app_assoc.
  - exists false,
      [ConsoleError "ADMIN_PASSWORD_HASH not configured in environment"].
    split; reflexivity.
Qed.
(** C3 ([verifyPassword] fails closed).  When no secret hash is
    configured, [verifyPassword] is fulfilled with [false] for every
    candidate password and every setting of [NODE_ENV] and
    [ADMIN_PASSWORD], development mode with a plaintext password that
    matches included; it does not reject, and all it does is write the one
    diagnostic line to [console.error]. *)
Theorem verifyPassword_fails_closed env password w :
  hash_unconfigured env →
  verifyPassword env password w =
    (Fulfilled false,
     emit (ConsoleError "ADMIN_PASSWORD_HASH not configured in environment")
          w).
Proof.
  intros Hno. unfold verifyPassword.
  assert (truthy_str (ADMIN_PASSWORD_HASH env) = false) as ->.
  { by destruct Hno as [-> | ->]. }
  reflexivity.
Qed.

(** C4 ([changePassword] does nothing when the current password fails).
    Whenever [verifyPassword current] is fulfilled with [false],
    [changePassword current proposed] is fulfilled with [false] as well, for
    every proposed password, and ends in the very state [verifyPassword]
    alone ends in: the rate-limit store is the one it started with, and
    what was added to the trace contains no call of [bcrypt.hash] and no
    line on [console.log], so no new hash was computed or printed. *)
Theorem changePassword_atomic_on_failure env current proposed salt w w' :
  verifyPassword env current w = (Fulfilled false, w') →
  changePassword env current proposed salt w = (Fulfilled false, w') ∧
  rateLimitStore w' = rateLimitStore w ∧
  ∃ evs, trace w' = trace w ++ evs ∧
         forallb (λ e, negb (hash_event e)) evs = true.
Proof.
  intros Hverify. split.
  { unfold changePassword, mbind, async_bind. by rewrite Hverify. }
  destruct (verifyPassword_effects env current w) as (ok & evs & Heq & Hevs).
  rewrite Hverify in Heq. injection Heq as _ ->.
  split; [done |]. by exists evs.
Qed.

(** C5 (hash and verify round trip).  Let bcrypt keep its contract.  For
    every plaintext of length at least 1 and every salt bcrypt may draw, if
    [generatePasswordHash plaintext] is fulfilled with a hash and that hash
    is configured as the secret, then [verifyPassword plaintext] is
    fulfilled with [true], whatever the other settings and the state.  The
    hash itself varies with the salt. *)
Theorem hash_verify_roundtrip {Hsound : BcryptSound B}
    plaintext salt w h w1 node_env admin_password w2 :
  (1 <= String.length plaintext)%nat →
  generatePasswordHash plaintext salt w = (Fulfilled h, w1) →
  (verifyPassword (mkEnv (Some h) node_env admin_password) plaintext w2).1
    = Fulfilled true.
Proof.
  intros _ Hgen. unfold generatePasswordHash, await_hash in Hgen.
  injection Hgen as Hhash _.
  pose proof (hash_nonempty _ _ _ _ Hhash) as Hne.
  pose proof (compare_hash _ _ _ _ Hhash) as Hcmp.
  unfold verifyPassword. simpl.
  destruct h as [| c h']; [done |]. simpl.
  unfold try_catch.
  destruct (bool_decide (node_env = Some "development")
            && truthy_str admin_password
            && bool_decide (Some plaintext = admin_password)); [done |].
  unfold await_compare. by rewrite Hcmp.
Qed.

End VerifierFacts.

(** The stand-in keeps the contract. *)
Lemma toy_bcrypt_sound : BcryptSound toy_bcrypt.
Proof.
  split; simpl; unfold toy_hash.
  - intros data rounds salt h [= <-]. done.
  - intros data rounds salt h [= <-]. simpl.
    by rewrite String.eqb_refl.
Qed.

(** With the stand-in, two salts give two hashes of one plaintext. *)
Example toy_hash_salted :
  toy_hash "hunter2" 10 "a" ≠ toy_hash "hunter2" 10 "b".
Proof. discriminate. Qed.

Lemma verifyPassword_fails_closed_witness :
  verifyPassword (B := toy_bcrypt)
    (mkEnv None (Some "development") (Some "hunter2")) "hunter2"
    (mkWorld ∅ [])
  = (Fulfilled false,
     emit (ConsoleError "ADMIN_PASSWORD_HASH not configured in environment")
          (mkWorld ∅ [])).
Proof.
  apply (verifyPassword_fails_closed (B := toy_bcrypt)
           (mkEnv None (Some "development") (Some "hunter2")) "hunter2"
           (mkWorld ∅ [])).
  left. reflexivity.
Defined.

Lemma changePassword_atomic_on_failure_witness :
  let env := mkEnv (Some "$ahunter2") None None in
  let w := mkWorld (<["10.0.0.1" := mkEntry 2 1000 None]> ∅) [] in
  let w' := emit (CallCompare "guess" "$ahunter2") w in
  changePassword (B := toy_bcrypt) env "guess" "longenough" "b"%char w
    = (Fulfilled false, w') ∧
  rateLimitStore w' = rateLimitStore w ∧
  ∃ evs, trace w' = trace w ++ evs ∧
         forallb (λ e, negb (hash_event e)) evs = true.
Proof.
  apply (changePassword_atomic_on_failure (B := toy_bcrypt)
           (mkEnv (Some "$ahunter2") None None) "guess" "longenough"
           "b"%char).
  reflexivity.
Defined.

Lemma hash_verify_roundtrip_witness :
  (verifyPassword (B := toy_bcrypt)
     (mkEnv (Some "$ahunter2") (Some "production") None) "hunter2"
     (mkWorld ∅ [])).1
  = Fulfilled true.
Proof.
  apply (hash_verify_roundtrip (B := toy_bcrypt)
           (Hsound := toy_bcrypt_sound)
           "hunter2" "a"%char (mkWorld ∅ []) "$ahunter2"
           (emit (CallHash "hunter2" 10) (mkWorld ∅ []))).
  - simpl. lia.
  - reflexivity.
Defined.

(** ** The scenario of the specification, run on the model

    After the five failures of client A the sixth check is refused for 1800
    seconds; client B, with one failure, is not affected. *)
Example scenario_sixth_refused :
  (checkRateLimit 55000 "A" five_failures).1 = mkResult false (Some 1800) ∧
  (checkRateLimit 55000 "B" five_failures).1 = mkResult true None.
Proof. split; vm_compute; reflexivity. Qed.

(** * Further properties of the rate limiter *)

Lemma last_cons_default (t : Z) times d d' :
  List.last (t :: times) d = List.last (t :: times) d'.
Proof.
  revert t. induction times as [| t' times IH]; intros t; [done |].
  apply (IH t').
Qed.

Lemma recordFailedAttempts_other times ip store k :
  k ≠ ip → recordFailedAttempts times ip store !! k = store !! k.
Proof.
  intros Hk. revert store. unfold recordFailedAttempts.
  induction times as [| t times IH]; intros store; simpl; [done |].
  by rewrite IH, recordFailedAttempt_other.
Qed.

(** The entry of a client after a run of failures: the counter has grown by
    the number of failures, the last attempt is the last clock reading, and
    the lockout field is what it was. *)
Lemma recordFailedAttempts_same times ip store entry :
  store !! ip = Some entry →
  recordFailedAttempts times ip store !! ip =
  Some (mkEntry (attempts entry + Z.of_nat (length times))
                (List.last times (lastAttempt entry)) (blockedUntil entry)).
Proof.
  revert store entry. unfold recordFailedAttempts.
  induction times as [| t times IH]; intros store entry Hip; simpl.
  - rewrite Hip. destruct entry; simpl. do 2 f_equal. lia.
  - erewrite IH; last by rewrite recordFailedAttempt_same, Hip.
    simpl attempts. simpl lastAttempt. simpl blockedUntil.
    do 2 f_equal; [simpl length; lia |].
    destruct times as [| t' times]; [done |]. apply last_cons_default.
Qed.

Lemma run_other op ip k store :
  op_client op = Some ip → k ≠ ip → run op store !! k = store !! k.
Proof.
  intros Hop Hk.
  destruct op as [now c | now c | c | now]; simpl in *; simplify_eq.
  - by apply checkRateLimit_other.
  - by apply recordFailedAttempt_other.
  - by apply lookup_delete_ne.
Qed.

(** The answer of a check is read off the client's own entry. *)
Lemma check_answer_own_entry now ip (store1 store2 : gmap string RateLimitEntry) :
  store1 !! ip = store2 !! ip →
  (checkRateLimit now ip store1).1 = (checkRateLimit now ip store2).1.
Proof.
  intros Heq. unfold checkRateLimit. rewrite Heq.
  destruct (store2 !! ip) as [entry|]; [| done].
  destruct (block_active now entry); [by destruct (blockedUntil entry) |].
  destruct (window_passed now entry); [done |].
  by destruct (attempts entry >=? MAX_ATTEMPTS).
Qed.

(** A check made while the lockout of the entry is running. *)
Lemma check_blocked now ip store entry b :
  store !! ip = Some entry → blockedUntil entry = Some b →
  b ≠ 0 → now < b →
  checkRateLimit now ip store
  = (mkResult false (Some (ceil_div_1000 (b - now))), store).
Proof.
  intros Hip Hb Hnz Hlt. unfold checkRateLimit, block_active.
  rewrite Hip, Hb. simpl.
  replace (b =? 0) with false by lia. by replace (b >? now) with true by lia.
Qed.

Lemma ceil_div_1000_bounds x :
  1000 * (ceil_div_1000 x - 1) < x <= 1000 * ceil_div_1000 x.
Proof.
  unfold ceil_div_1000.
  pose proof (Z.div_mod (- x) 1000 ltac:(lia)).
  pose proof (Z.mod_pos_bound (- x) 1000 ltac:(lia)). lia.
Qed.

Lemma recordFailedAttempts_fresh times ip store :
  store !! ip = None → times ≠ [] →
  recordFailedAttempts times ip store !! ip =
  Some (mkEntry (Z.of_nat (length times)) (List.last times 0) None).
Proof.
  intros Hip Hne. destruct times as [| t times]; [done |].
  change (recordFailedAttempts (t :: times) ip store)
    with (recordFailedAttempts times ip (recordFailedAttempt t ip store)).
  erewrite recordFailedAttempts_same;
    last by rewrite recordFailedAttempt_same, Hip.
  simpl attempts. simpl lastAttempt. simpl blockedUntil.
  do 2 f_equal; [simpl length; lia |].
  destruct times as [| t' times]; [done |].
  exact (last_cons_default t' times t 0).
Qed.

(** X1.  Counters are independent: whatever is checked, recorded or reset
    for one client, the answer of [checkRateLimit] for another client stays
    the same. *)
Theorem check_answer_independent op other now ip store :
  op_client op = Some other → ip ≠ other →
  (checkRateLimit now ip (run op store)).1 = (checkRateLimit now ip store).1.
Proof.
  intros Hop Hne. apply check_answer_own_entry. by eapply run_other.
Qed.

Lemma check_answer_independent_witness :
  (checkRateLimit 70000 "A"
     (run (OpReset "B") (recordFailedAttempts [1; 2; 3; 4; 5] "A" ∅))).1
  = (checkRateLimit 70000 "A"
       (recordFailedAttempts [1; 2; 3; 4; 5] "A" ∅)).1.
Proof.
  apply (check_answer_independent (OpReset "B") "B" 70000 "A").
  - reflexivity.
  - discriminate.
Defined.

(** X2.  While a lockout is running, [checkRateLimit] refuses, leaves the
    store exactly as it is, and reports the remaining time rounded up to
    whole seconds: the delay [n] satisfies
    [1000 * (n - 1) < blockedUntil - now <= 1000 * n]. *)
Theorem check_during_lockout now ip store entry b :
  store !! ip = Some entry → blockedUntil entry = Some b →
  b ≠ 0 → now < b →
  ∃ n, checkRateLimit now ip store = (mkResult false (Some n), store) ∧
       1000 * (n - 1) < b - now <= 1000 * n.
Proof.
  intros Hip Hb Hnz Hlt. exists (ceil_div_1000 (b - now)).
  split; [by eapply check_blocked | apply ceil_div_1000_bounds].
Qed.

Lemma check_during_lockout_witness :
  let store : gmap string RateLimitEntry :=
    <["A" := mkEntry 5 1000 (Some 1802000)]> ∅ in
  ∃ n, checkRateLimit 2500 "A" store = (mkResult false (Some n), store) ∧
       1000 * (n - 1) < 1802000 - 2500 <= 1000 * n.
Proof.
  apply (check_during_lockout 2500 "A"
           (<["A" := mkEntry 5 1000 (Some 1802000)]> ∅)
           (mkEntry 5 1000 (Some 1802000)) 1802000).
  - reflexivity.
  - reflexivity.
  - lia.
  - lia.
Defined.

(** X3.  Failures alone never lock a client out.  However many failures
    are recorded for a client that has no entry, and at whatever clock
    readings, the entry counts all of them, dates from the last one and
    carries no lockout: the lockout is only ever installed by a check. *)
Theorem failures_alone_never_lock times ip store :
  store !! ip = None → times ≠ [] →
  recordFailedAttempts times ip store !! ip =
  Some (mkEntry (Z.of_nat (length times)) (List.last times 0) None).
Proof. apply recordFailedAttempts_fresh. Qed.

Lemma failures_alone_never_lock_witness :
  recordFailedAttempts [10; 20; 30; 40; 50; 60; 70] "A" ∅ !! "A" =
  Some (mkEntry (Z.of_nat (length [10; 20; 30; 40; 50; 60; 70]))
                (List.last [10; 20; 30; 40; 50; 60; 70] 0) None).
Proof.
  apply (failures_alone_never_lock [10; 20; 30; 40; 50; 60; 70] "A" ∅).
  - reflexivity.
  - discriminate.
Defined.

(** X4.  [recordFailedAttempt] never consults the window.  Further failures
    of a client that has an entry raise its counter by their number,
    however long after the last attempt they come; they keep the lockout
    field as it is. *)
Theorem failures_accumulate_regardless_of_window times ip store entry :
  store !! ip = Some entry →
  ∃ entry', recordFailedAttempts times ip store !! ip = Some entry' ∧
            attempts entry' = attempts entry + Z.of_nat (length times) ∧
            blockedUntil entry' = blockedUntil entry ∧
            (times ≠ [] → lastAttempt entry' = List.last times 0).
Proof.
  intros Hip. eexists. split; [by apply recordFailedAttempts_same |].
  simpl. repeat split. intros Hne.
  destruct times as [| t times]; [done |]. apply last_cons_default.
Qed.

Lemma failures_accumulate_regardless_of_window_witness :
  let store : gmap string RateLimitEntry :=
    <["A" := mkEntry 4 0 None]> ∅ in
  ∃ entry', recordFailedAttempts [5000000] "A" store !! "A" = Some entry' ∧
            attempts entry' = 4 + Z.of_nat (length [5000000]) ∧
            blockedUntil entry' = None ∧
            ([5000000] ≠ [] → lastAttempt entry' = List.last [5000000] 0).
Proof.
  apply (failures_accumulate_regardless_of_window [5000000] "A"
           (<["A" := mkEntry 4 0 None]> ∅) (mkEntry 4 0 None)).
  reflexivity.
Defined.

(** The entry a check leaves behind when it installs the lockout. *)
Lemma check_installs now ip store entry :
  store !! ip = Some entry →
  ¬ lockout_active now entry →
  ¬ window_elapsed now entry →
  MAX_ATTEMPTS <= attempts entry →
  (checkRateLimit now ip store).2 !! ip =
    Some (mkEntry (attempts entry) (lastAttempt entry)
                  (Some (now + BLOCK_DURATION_MS))).
Proof.
  intros Hip Hblk Hwin Hatt. rewrite checkRateLimit_same, Hip. simpl.
  rewrite (block_active_false _ _ Hblk).
  destruct (window_passed now entry) eqn:Hw.
  { by apply window_passed_spec in Hw. }
  by replace (attempts entry >=? MAX_ATTEMPTS) with true by lia.
Qed.

(** X5.  The threshold is exact.  For a client that had no entry, after any
    number of recorded failures the last of which is not older than the
    window, [checkRateLimit] allows the client when fewer than 5 failures
    were recorded and refuses it for 1800 seconds when 5 or more were. *)
Theorem threshold_exact now times ip store :
  store !! ip = None → times ≠ [] →
  now - List.last times 0 <= WINDOW_MS →
  (checkRateLimit now ip (recordFailedAttempts times ip store)).1 =
  if Z.of_nat (length times) <? MAX_ATTEMPTS
  then mkResult true None
  else mkResult false (Some 1800).
Proof.
  intros Hip Hne Hwin. unfold checkRateLimit.
  rewrite (recordFailedAttempts_fresh _ _ _ Hip Hne).
  unfold block_active, window_passed. simpl.
  replace (_ >? WINDOW_MS) with false by lia.
  destruct (Z.of_nat (length times) <? MAX_ATTEMPTS) eqn:Hlt.
  - by replace (_ >=? MAX_ATTEMPTS) with false by lia.
  - by replace (_ >=? MAX_ATTEMPTS) with true by lia.
Qed.

Lemma threshold_exact_witness :
  (checkRateLimit 70000 "A"
     (recordFailedAttempts [10000; 20000; 30000; 40000] "A" ∅)).1 =
  if Z.of_nat (length [10000; 20000; 30000; 40000]) <? MAX_ATTEMPTS
  then mkResult true None
  else mkResult false (Some 1800).
Proof.
  apply (threshold_exact 70000 [10000; 20000; 30000; 40000] "A" ∅).
  - reflexivity.
  - discriminate.
  - unfold WINDOW_MS. simpl. lia.
Defined.

(** X6.  A lockout outlives further failures.  Once an entry carries a
    lockout, failures recorded for that client afterwards, in any number,
    do not lift it: every check made before the expiry is refused. *)
Theorem lockout_survives_failures times now ip store entry b :
  store !! ip = Some entry → blockedUntil entry = Some b →
  b ≠ 0 → now < b →
  allowed (checkRateLimit now ip (recordFailedAttempts times ip store)).1
  = false.
Proof.
  intros Hip Hb Hnz Hlt.
  erewrite check_blocked; [done | by apply recordFailedAttempts_same | ..];
    done.
Qed.

Lemma lockout_survives_failures_witness :
  allowed (checkRateLimit 900000 "A"
             (recordFailedAttempts [5000; 6000] "A"
                (<["A" := mkEntry 5 1000 (Some 1802000)]> ∅))).1
  = false.
Proof.
  apply (lockout_survives_failures [5000; 6000] 900000 "A"
           (<["A" := mkEntry 5 1000 (Some 1802000)]> ∅)
           (mkEntry 5 1000 (Some 1802000)) 1802000).
  - reflexivity.
  - reflexivity.
  - lia.
  - lia.
Defined.

(** One operation on an entry that carries a lockout with a positive
    expiry: if the entry is still there afterwards, it still carries a
    lockout, and the expiry has not moved back. *)
Lemma lockout_step op ip store entry b entry' :
  store !! ip = Some entry → blockedUntil entry = Some b → 0 < b →
  run op store !! ip = Some entry' →
  ∃ b', blockedUntil entry' = Some b' ∧ b <= b'.
Proof.
  intros Hip Hb Hpos Hafter.
  destruct op as [t client | t client | client | t]; simpl in Hafter.
  - destruct (decide (ip = client)) as [<- | Hne].
    + rewrite checkRateLimit_same, Hip in Hafter. simpl in Hafter.
      destruct (block_active t entry) eqn:Hact.
      { injection Hafter as <-. exists b. split; [done | lia]. }
      destruct (window_passed t entry); [done |].
      destruct (attempts entry >=? MAX_ATTEMPTS);
        injection Hafter as <-; simpl.
      * eexists. split; [done |].
        unfold block_active in Hact. rewrite Hb in Hact. simpl in Hact.
        replace (b =? 0) with false in Hact by lia. simpl in Hact.
        unfold BLOCK_DURATION_MS. lia.
      * exists b. split; [done | lia].
    + rewrite checkRateLimit_other, Hip in Hafter by done.
      injection Hafter as <-. exists b. split; [done | lia].
  - destruct (decide (ip = client)) as [<- | Hne].
    + rewrite recordFailedAttempt_same, Hip in Hafter.
      injection Hafter as <-. exists b. split; [done | lia].
    + rewrite recordFailedAttempt_other, Hip in Hafter by done.
      injection Hafter as <-. exists b. split; [done | lia].
  - unfold resetRateLimit in Hafter.
    apply lookup_delete_Some in Hafter as [_ Hafter].
    rewrite Hip in Hafter. injection Hafter as <-.
    exists b. split; [done | lia].
  - rewrite cleanup_lookup, Hip in Hafter.
    destruct (block_lapsed t entry || window_passed t entry); [done |].
    injection Hafter as <-. exists b. split; [done | lia].
Qed.

(** A history that never deletes the entry keeps its lockout. *)
Lemma lockout_kept ops ip store entry b :
  store !! ip = Some entry → blockedUntil entry = Some b → 0 < b →
  entry_kept ip ops store = true →
  ∃ entry' b', run_ops ops store !! ip = Some entry' ∧
               blockedUntil entry' = Some b' ∧ b <= b'.
Proof.
  revert store entry b. unfold run_ops.
  induction ops as [| op ops IH]; intros store entry b Hip Hb Hpos Hkept.
  - exists entry, b. simpl. split; [done |]. split; [done | lia].
  - simpl in *. destruct (run op store !! ip) as [entry1|] eqn:Hstep;
      [| discriminate Hkept].
    destruct (lockout_step _ _ _ _ _ _ Hip Hb Hpos Hstep) as (b1 & Hb1 & Hle).
    destruct (IH _ _ _ Hstep Hb1 ltac:(lia) Hkept)
      as (entry' & b' & Hlast & Hb' & Hle').
    exists entry', b'. split; [done |]. split; [done | lia].
Qed.

(** X7.  A lockout lasts for as long as the entry is kept.  After a check
    at [now] has installed the lockout, let any history of checks,
    failures, resets and sweeps follow, for any clients and at any clock
    readings.  If none of these operations deletes the client's entry, a
    check of that client at any [t] before [now + BLOCK_DURATION_MS] is
    refused, with a delay of at least one second, and changes nothing.
    Only the deletion of the entry, by a reset or by a sweep that finds the
    last attempt older than the window, ends the lockout before its 30
    minutes are over. *)
Theorem lockout_lasts now t ip store entry ops :
  store !! ip = Some entry →
  ¬ lockout_active now entry →
  ¬ window_elapsed now entry →
  MAX_ATTEMPTS <= attempts entry →
  0 <= now →
  entry_kept ip ops (checkRateLimit now ip store).2 = true →
  t < now + BLOCK_DURATION_MS →
  ∃ n, checkRateLimit t ip (run_ops ops (checkRateLimit now ip store).2)
       = (mkResult false (Some n),
          run_ops ops (checkRateLimit now ip store).2) ∧
       1 <= n.
Proof.
  intros Hip Hblk Hwin Hatt Hnow Hkept Ht.
  pose proof (check_installs _ _ _ _ Hip Hblk Hwin Hatt) as Hinst.
  destruct (lockout_kept ops ip _ _ (now + BLOCK_DURATION_MS) Hinst eq_refl
              ltac:(unfold BLOCK_DURATION_MS; lia) Hkept)
    as (entry' & b' & Hlast & Hb' & Hle).
  exists (ceil_div_1000 (b' - t)). split.
  - eapply check_blocked; [done | done | |];
      unfold BLOCK_DURATION_MS in *; lia.
  - apply ceil_div_1000_pos. lia.
Qed.

Lemma lockout_lasts_witness :
  let store : gmap string RateLimitEntry :=
    <["A" := mkEntry 5 50000 None]> ∅ in
  let ops := [OpRecord 60000 "A"; OpSweep 600000; OpCheck 700000 "A";
              OpReset "B"; OpRecord 800000 "B"; OpSweep 900000] in
  ∃ n, checkRateLimit 1000000 "A"
         (run_ops ops (checkRateLimit 55000 "A" store).2)
       = (mkResult false (Some n),
          run_ops ops (checkRateLimit 55000 "A" store).2) ∧
       1 <= n.
Proof.
  apply (lockout_lasts 55000 1000000 "A"
           (<["A" := mkEntry 5 50000 None]> ∅) (mkEntry 5 50000 None)
           [OpRecord 60000 "A"; OpSweep 600000; OpCheck 700000 "A";
            OpReset "B"; OpRecord 800000 "B"; OpSweep 900000]).
  - reflexivity.
  - intros (b & Hb & _). discriminate Hb.
  - unfold window_elapsed, WINDOW_MS. simpl. lia.
  - unfold MAX_ATTEMPTS. simpl. lia.
  - lia.
  - vm_compute. reflexivity.
  - unfold BLOCK_DURATION_MS. lia.
Defined.



(** X9.  Asking twice at the same instant changes nothing: at a clock
    reading that is not negative, a second [checkRateLimit] for the same
    client gives the answer of the first and leaves the store as the first
    left it.  In particular the check that installs a lockout and the check
    right after it both report 1800 seconds. *)
Theorem check_idempotent now ip store :
  0 <= now →
  checkRateLimit now ip (checkRateLimit now ip store).2
  = checkRateLimit now ip store.
Proof.
  intros Hnow.
  destruct (checkRateLimit now ip store) as [answer store'] eqn:Hcheck.
  simpl. unfold checkRateLimit in Hcheck.
  destruct (store !! ip) as [entry|] eqn:Hip.
  2: { simplify_eq. unfold checkRateLimit. by rewrite Hip. }
  destruct (block_active now entry) eqn:Hact.
  { destruct (blockedUntil entry) as [b|] eqn:Hb; simplify_eq;
      unfold checkRateLimit; by rewrite Hip, Hact, ?Hb. }
  destruct (window_passed now entry) eqn:Hwin.
  { simplify_eq. unfold checkRateLimit. by rewrite lookup_delete_eq. }
  destruct (attempts entry >=? MAX_ATTEMPTS) eqn:Hatt; simplify_eq.
  - erewrite (check_blocked now ip _ _ (now + BLOCK_DURATION_MS));
      [| apply lookup_insert_eq | reflexivity
       | unfold BLOCK_DURATION_MS; lia | unfold BLOCK_DURATION_MS; lia].
    by replace (now + BLOCK_DURATION_MS - now) with BLOCK_DURATION_MS by lia.
  - unfold checkRateLimit. by rewrite Hip, Hact, Hwin, Hatt.
Qed.

Lemma check_idempotent_witness :
  checkRateLimit 55000 "A"
    (checkRateLimit 55000 "A" (<["A" := mkEntry 5 50000 None]> ∅)).2
  = checkRateLimit 55000 "A" (<["A" := mkEntry 5 50000 None]> ∅).
Proof.
  apply (check_idempotent 55000 "A" (<["A" := mkEntry 5 50000 None]> ∅)).
  lia.
Defined.

(** X10.  The sweep is idempotent: a second run at the same clock reading
    finds nothing more to delete. *)
Theorem sweep_idempotent now store :
  cleanupRateLimitStore now (cleanupRateLimitStore now store)
  = cleanupRateLimitStore now store.
Proof.
  apply map_eq. intros k. rewrite !cleanup_lookup.
  destruct (store !! k) as [entry|]; [| done].
  destruct (block_lapsed now entry || window_passed now entry) eqn:Hdel;
    [done |].
  by rewrite Hdel.
Qed.

(** X11.  The sweep lifts a lockout early.  In any store, an entry whose
    last attempt is older than the window is deleted by the sweep even
    while its lockout is still running, and from then on
    [checkRateLimit] allows that client at every clock reading. *)
Theorem sweep_lifts_stale_lockout now t ip store entry :
  store !! ip = Some entry →
  window_elapsed now entry →
  checkRateLimit t ip (cleanupRateLimitStore now store)
  = (mkResult true None, cleanupRateLimitStore now store).
Proof.
  intros Hip Hwin. apply window_passed_spec in Hwin.
  unfold checkRateLimit. rewrite cleanup_lookup, Hip, Hwin.
  by rewrite orb_true_r.
Qed.

Lemma sweep_lifts_stale_lockout_witness :
  let store : gmap string RateLimitEntry :=
    <["A" := mkEntry 5 0 (Some 2700000)]> ∅ in
  checkRateLimit 1000000 "A" (cleanupRateLimitStore 1000000 store)
  = (mkResult true None, cleanupRateLimitStore 1000000 store).
Proof.
  apply (sweep_lifts_stale_lockout 1000000 1000000 "A"
           (<["A" := mkEntry 5 0 (Some 2700000)]> ∅)
           (mkEntry 5 0 (Some 2700000))).
  - reflexivity.
  - unfold window_elapsed, WINDOW_MS. simpl. lia.
Defined.

(** X12.  Only [recordFailedAttempt] creates entries: a check, a reset and
    a sweep each leave a store whose clients are among those it had. *)
Theorem only_record_creates now ip store :
  dom (checkRateLimit now ip store).2 ⊆ dom store ∧
  dom (resetRateLimit ip store) ⊆ dom store ∧
  dom (cleanupRateLimitStore now store) ⊆ dom store.
Proof.
  split; [| split].
  - intros k [e He]%elem_of_dom. apply elem_of_dom.
    destruct (decide (k = ip)) as [-> | Hne].
    + rewrite checkRateLimit_same in He.
      by destruct (store !! ip).
    + rewrite checkRateLimit_other in He by done. by exists e.
  - unfold resetRateLimit. rewrite dom_delete_L.
    apply subseteq_difference_l. reflexivity.
  - apply subseteq_dom. apply map_subseteq_spec. intros k entry.
    rewrite cleanup_lookup.
    destruct (store !! k) as [e|]; [| done].
    by destruct (block_lapsed now e || window_passed now e).
Qed.

(** X13.  Every entry of a reachable store counts at least one failure,
    and an entry that carries a lockout has reached the threshold of 5
    failures and expires no earlier than one lockout duration after the
    epoch; in particular its expiry is never the falsy value 0. *)
Theorem reachable_entries_wellformed store ip entry :
  reachable store → store !! ip = Some entry →
  1 <= attempts entry ∧
  ∀ b, blockedUntil entry = Some b →
       5 <= attempts entry ∧ 1800000 <= b ∧ b ≠ 0.
Proof.
  intros Hreach Hip.
  destruct (reachable_inv _ Hreach _ _ Hip) as [Hone Hblk].
  split; [done |]. intros b Hb. destruct (Hblk b Hb) as [H5 Hdur].
  unfold MAX_ATTEMPTS, BLOCK_DURATION_MS in *. lia.
Qed.

Lemma reachable_entries_wellformed_witness :
  1 <= attempts (mkEntry 1 60000 None) ∧
  ∀ b, blockedUntil (mkEntry 1 60000 None) = Some b →
       5 <= attempts (mkEntry 1 60000 None) ∧ 1800000 <= b ∧ b ≠ 0.
Proof.
  apply (reachable_entries_wellformed (run (OpRecord 60000 "A") ∅) "A").
  - apply reach_step; [apply reach_init |]. unfold clock_ok. simpl. lia.
  - reflexivity.
Defined.

(** * Further properties of the credential verifier *)

Section VerifierMore.
Context {B : Bcrypt}.

(** The test the code makes before it accepts the plaintext. *)
Lemma fallback_test_spec env password :
  bool_decide (NODE_ENV env = Some "development")
  && truthy_str (ADMIN_PASSWORD env)
  && bool_decide (Some password = ADMIN_PASSWORD env) = true
  ↔ plaintext_fallback env password.
Proof.
  unfold plaintext_fallback. rewrite !andb_true_iff, !bool_decide_eq_true.
  split.
  - intros [[Hdev Htruthy] Heq]. rewrite <- Heq in Htruthy.
    split; [done |]. split; [done |]. by intros ->.
  - intros (Hdev & Heq & Hne). rewrite Heq.
    split; [split; [done |] | done]. by destruct password.
Qed.

Lemma truthy_str_Some h : h ≠ EmptyString → truthy_str (Some h) = true.
Proof. by destruct h. Qed.

(** The verdict of [verifyPassword] and its effects when the fallback does
    not apply. *)
Lemma verifyPassword_compare env password h w :
  ADMIN_PASSWORD_HASH env = Some h → h ≠ EmptyString →
  ¬ plaintext_fallback env password →
  verifyPassword env password w =
  match bcrypt_compare password h with
  | Fulfilled ok => (Fulfilled ok, emit (CallCompare password h) w)
  | Rejected err =>
      (Fulfilled false,
       emit (ConsoleError ("Password verification error: " +:+ err))
            (emit (CallCompare password h) w))
  end.
Proof.
  intros Hh Hne Hnofb. unfold verifyPassword.
  rewrite Hh, (truthy_str_Some _ Hne). simpl. unfold try_catch.
  destruct (bool_decide _ && _ && _) eqn:Htest.
  { by apply fallback_test_spec in Htest. }
  unfold await_compare. by destruct (bcrypt_compare password h).
Qed.

(** X14.  [verifyPassword] never rejects and never touches the rate-limit
    store: on every input, in every configuration, its promise is fulfilled
    with a boolean and the store is the one it started with. *)
Theorem verifyPassword_never_rejects env password w :
  ∃ ok w', verifyPassword env password w = (Fulfilled ok, w') ∧
           rateLimitStore w' = rateLimitStore w.
Proof.
  destruct (verifyPassword_effects env password w) as (ok & evs & Heq & _).
  exists ok. eexists. split; [exact Heq | done].
Qed.

(** X15.  An error of [bcrypt.compare] is swallowed: when the comparison
    rejects, as it does on a malformed hash, [verifyPassword] is fulfilled
    with [false] and the error is written to [console.error]. *)
Theorem verifyPassword_compare_error env password h err w :
  ADMIN_PASSWORD_HASH env = Some h → h ≠ EmptyString →
  ¬ plaintext_fallback env password →
  bcrypt_compare password h = Rejected err →
  verifyPassword env password w =
  (Fulfilled false,
   emit (ConsoleError ("Password verification error: " +:+ err))
        (emit (CallCompare password h) w)).
Proof.
  intros Hh Hne Hnofb Herr.
  rewrite (verifyPassword_compare _ _ _ _ Hh Hne Hnofb). by rewrite Herr.
Qed.

(** X16.  Without the fallback the verdict is bcrypt's: when a hash is
    configured and the development fallback does not apply,
    [verifyPassword] is fulfilled with what [bcrypt.compare] says about the
    candidate and the configured hash, an error counting as [false]. *)
Theorem verifyPassword_is_compare_verdict env password h w :
  ADMIN_PASSWORD_HASH env = Some h → h ≠ EmptyString →
  ¬ plaintext_fallback env password →
  (verifyPassword env password w).1
  = Fulfilled (compare_verdict (bcrypt_compare password h)).
Proof.
  intros Hh Hne Hnofb.
  rewrite (verifyPassword_compare _ _ _ _ Hh Hne Hnofb).
  by destruct (bcrypt_compare password h).
Qed.

(** X17.  Outside development mode [ADMIN_PASSWORD] is ignored: with
    [NODE_ENV] other than [development], [verifyPassword] behaves the same
    whatever that variable holds, the candidate itself included. *)
Theorem production_ignores_plaintext hash node_env admin1 admin2 password w :
  node_env ≠ Some "development" →
  verifyPassword (mkEnv hash node_env admin1) password w
  = verifyPassword (mkEnv hash node_env admin2) password w.
Proof.
  intros Hprod. unfold verifyPassword. simpl.
  by rewrite (bool_decide_eq_false_2 _ Hprod).
Qed.

(** X18.  In development mode the configured plaintext is accepted without
    bcrypt: when a hash is configured and the candidate is the non-empty
    [ADMIN_PASSWORD], [verifyPassword] is fulfilled with [true] and does
    nothing else, whether or not the candidate matches the hash. *)
Theorem dev_plaintext_accepted env password h w :
  ADMIN_PASSWORD_HASH env = Some h → h ≠ EmptyString →
  plaintext_fallback env password →
  verifyPassword env password w = (Fulfilled true, w).
Proof.
  intros Hh Hne Hfb. unfold verifyPassword.
  rewrite Hh, (truthy_str_Some _ Hne). simpl. unfold try_catch.
  apply fallback_test_spec in Hfb. by rewrite Hfb.
Qed.

(** X19.  A successful change prints the new hash and nothing more.  When
    the current password verifies and [bcrypt.hash] yields [h] for the
    proposed password at cost 10, [changePassword] is fulfilled with [true]
    after one call of [bcrypt.hash] and two lines on [console.log], the
    second being [h]; the configured secret is not replaced.  No condition
    is put on the proposed password. *)
Theorem changePassword_success env current proposed salt h w w1 :
  verifyPassword env current w = (Fulfilled true, w1) →
  bcrypt_hash proposed 10 salt = Fulfilled h →
  changePassword env current proposed salt w =
  (Fulfilled true,
   emit (ConsoleLog h)
     (emit (ConsoleLog "New password hash (update in .env.production):")
        (emit (CallHash proposed 10) w1))).
Proof.
  intros Hverify Hhash.
  unfold changePassword, mbind, async_bind. rewrite Hverify. simpl.
  unfold generatePasswordHash, await_hash. by rewrite Hhash.
Qed.

(** X20.  An error of [bcrypt.hash] reaches the caller: when the current
    password verifies and the hashing rejects, [changePassword] rejects
    with the same error, having printed nothing on [console.log]. *)
Theorem changePassword_hash_error env current proposed salt err w w1 :
  verifyPassword env current w = (Fulfilled true, w1) →
  bcrypt_hash proposed 10 salt = Rejected err →
  changePassword env current proposed salt w =
  (Rejected err, emit (CallHash proposed 10) w1).
Proof.
  intros Hverify Hhash.
  unfold changePassword, mbind, async_bind. rewrite Hverify. simpl.
  unfold generatePasswordHash, await_hash. by rewrite Hhash.
Qed.

(** X21.  [changePassword] never touches the rate-limit store, whether it
    succeeds, fails or rejects. *)
Theorem changePassword_keeps_store env current proposed salt w :
  rateLimitStore (changePassword env current proposed salt w).2
  = rateLimitStore w.
Proof.
  destruct (verifyPassword_effects env current w) as (ok & evs & Heq & _).
  unfold changePassword, mbind, async_bind. rewrite Heq.
  destruct ok; simpl; [| done].
  unfold generatePasswordHash, await_hash.
  by destruct (bcrypt_hash proposed 10 salt).
Qed.
End VerifierMore.

Lemma verifyPassword_compare_error_witness :
  verifyPassword (B := toy_bcrypt) (mkEnv (Some "plain") None None)
    "hunter2" (mkWorld ∅ [])
  = (Fulfilled false,
     emit (ConsoleError ("Password verification error: " +:+ "invalid hash"))
          (emit (CallCompare "hunter2" "plain") (mkWorld ∅ []))).
Proof.
  apply (verifyPassword_compare_error (B := toy_bcrypt)
           (mkEnv (Some "plain") None None) "hunter2" "plain"
           "invalid hash" (mkWorld ∅ [])).
  - reflexivity.
  - discriminate.
  - intros (Hdev & _). discriminate Hdev.
  - reflexivity.
Defined.

Lemma verifyPassword_is_compare_verdict_witness :
  (verifyPassword (B := toy_bcrypt)
     (mkEnv (Some "$ahunter2") (Some "production") (Some "letmein"))
     "letmein" (mkWorld ∅ [])).1
  = Fulfilled (compare_verdict (toy_compare "letmein" "$ahunter2")).
Proof.
  apply (verifyPassword_is_compare_verdict (B := toy_bcrypt)
           (mkEnv (Some "$ahunter2") (Some "production") (Some "letmein"))
           "letmein" "$ahunter2" (mkWorld ∅ [])).
  - reflexivity.
  - discriminate.
  - intros (Hdev & _). discriminate Hdev.
Defined.

Lemma production_ignores_plaintext_witness :
  verifyPassword (B := toy_bcrypt)
    (mkEnv (Some "$ahunter2") (Some "production") (Some "letmein"))
    "letmein" (mkWorld ∅ [])
  = verifyPassword (B := toy_bcrypt)
      (mkEnv (Some "$ahunter2") (Some "production") None)
      "letmein" (mkWorld ∅ []).
Proof.
  apply (production_ignores_plaintext (B := toy_bcrypt)
           (Some "$ahunter2") (Some "production") (Some "letmein") None
           "letmein" (mkWorld ∅ [])).
  discriminate.
Defined.

Lemma dev_plaintext_accepted_witness :
  verifyPassword (B := toy_bcrypt)
    (mkEnv (Some "$ahunter2") (Some "development") (Some "letmein"))
    "letmein" (mkWorld ∅ [])
  = (Fulfilled true, mkWorld ∅ []).
Proof.
  apply (dev_plaintext_accepted (B := toy_bcrypt)
           (mkEnv (Some "$ahunter2") (Some "development") (Some "letmein"))
           "letmein" "$ahunter2" (mkWorld ∅ [])).
  - reflexivity.
  - discriminate.
  - repeat split; discriminate.
Defined.

Lemma changePassword_success_witness :
  let env := mkEnv (Some "$ahunter2") None None in
  let w1 := emit (CallCompare "hunter2" "$ahunter2") (mkWorld ∅ []) in
  changePassword (B := toy_bcrypt) env "hunter2" "" "b"%char (mkWorld ∅ [])
  = (Fulfilled true,
     emit (ConsoleLog "$b")
       (emit (ConsoleLog "New password hash (update in .env.production):")
          (emit (CallHash "" 10) w1))).
Proof.
  apply (changePassword_success (B := toy_bcrypt)
           (mkEnv (Some "$ahunter2") None None) "hunter2" "" "b"%char "$b"
           (mkWorld ∅ [])
           (emit (CallCompare "hunter2" "$ahunter2") (mkWorld ∅ []))).
  - reflexivity.
  - reflexivity.
Defined.

Lemma changePassword_hash_error_witness :
  let env := mkEnv (Some "$ahunter2") None None in
  changePassword (B := failing_hash_bcrypt) env "hunter2" "longenough"
    "b"%char (mkWorld ∅ [])
  = (Rejected "hashing failed",
     emit (CallHash "longenough" 10)
       (emit (CallCompare "hunter2" "$ahunter2") (mkWorld ∅ []))).
Proof.
  apply (changePassword_hash_error (B := failing_hash_bcrypt)
           (mkEnv (Some "$ahunter2") None None) "hunter2" "longenough"
           "b"%char "hashing failed" (mkWorld ∅ [])
           (emit (CallCompare "hunter2" "$ahunter2") (mkWorld ∅ []))).
  - reflexivity.
  - reflexivity.
Defined.

(** * Properties of the image counter *)

Section StatisticsFacts.
Context {Row Image : Type} (images : Row → list Image).

Lemma countImages_from (start : nat) (rows : list Row) :
  foldl (λ count row, (count + length (images row))%nat) start rows
  = (start + countImages images rows)%nat.
Proof.
  unfold countImages. revert start.
  induction rows as [| row rows IH]; intros start; simpl.
  - lia.
  - rewrite IH, (IH (length (images row))). lia.
Qed.

Lemma countImages_cons (row : Row) (rows : list Row) :
  countImages images (row :: rows)
  = (length (images row) + countImages images rows)%nat.
Proof. unfold countImages at 1. simpl. apply countImages_from. Qed.

(** X22.  [countImages] is the total number of images: the length of all
    the [images] arrays of the rows put end to end; it is 0 when there are
    no rows. *)
Theorem countImages_total (rows : list Row) :
  countImages images rows = length (concat (map images rows)).
Proof.
  induction rows as [| row rows IH]; [done |].
  rewrite countImages_cons, IH. simpl. by rewrite length_app.
Qed.

(** X23.  The count does not depend on the order of the rows. *)
Theorem countImages_permutation (rows rows' : list Row) :
  rows ≡ₚ rows' → countImages images rows = countImages images rows'.
Proof.
  induction 1 as [| row rows rows' _ IH | row1 row2 rows | ? ? ? _ IH1 _ IH2].
  - done.
  - by rewrite !countImages_cons, IH.
  - rewrite !countImages_cons. lia.
  - by rewrite IH1.
Qed.

(** X24.  The count is 0 exactly when no row has an image. *)
Theorem countImages_zero_iff (rows : list Row) :
  countImages images rows = 0%nat ↔ Forall (λ row, images row = []) rows.
Proof.
  induction rows as [| row rows IH].
  - split; [constructor | done].
  - rewrite countImages_cons, Forall_cons, <- IH.
    rewrite <- length_zero_iff_nil. lia.
Qed.
End StatisticsFacts.

Lemma countImages_permutation_witness :
  countImages (λ row : list Z, row) [[1; 2]; []; [3]]
  = countImages (λ row : list Z, row) [[]; [3]; [1; 2]].
Proof.
  apply (countImages_permutation (λ row : list Z, row)
           [[1; 2]; []; [3]] [[]; [3]; [1; 2]]).
  change ([[1; 2]] ++ [[]; [3]] ≡ₚ [[]; [3]] ++ [[1; 2]]).
  apply Permutation_app_comm.
Defined.

(** * Properties of the reload guard *)

(** X25.  The page is reloaded once.  From the initial flag, the first
    [controllerchange] event calls [reload] and every later one does not:
    over any positive number of events [reload] is called exactly once,
    and once the flag is set it is never called again. *)
Theorem reload_at_most_once n :
  controllerchanges (S n) false = (true, 1%nat) ∧
  controllerchanges n true = (true, 0%nat).
Proof.
  assert (∀ m, controllerchanges m true = (true, 0%nat)) as Hset.
  { induction m as [| m IH]; [done |]. simpl. by rewrite IH. }
  split; [| apply Hset]. simpl. by rewrite Hset.
Qed.

(** * Properties of the change-password dialog *)

Lemma is_empty_false s : is_empty s = false ↔ s ≠ EmptyString.
Proof. by destruct s. Qed.

(** The two shapes of a submit: the form passes the tests and the handler
    goes to the network between setting and clearing the loading flag, or
    it fails one and the handler stops at a toast. *)
Lemma handleSubmit_cases form net :
  (form_valid form ∧
   handleSubmit form net =
     PreventDefault :: SetIsLoading true ::
       submit_try form net ++ [SetIsLoading false]) ∨
  (¬ form_valid form ∧
   ∃ description,
     handleSubmit form net = [PreventDefault; error_toast description]).
Proof.
  unfold handleSubmit, form_valid.
  destruct (is_empty (currentPassword form)) eqn:E1; simpl.
  { right. split; [| by eexists]. intros (H & _).
    by destruct (currentPassword form). }
  destruct (is_empty (newPassword form)) eqn:E2; simpl.
  { right. split; [| by eexists]. intros (_ & H & _).
    by destruct (newPassword form). }
  destruct (is_empty (confirmPassword form)) eqn:E3; simpl.
  { right. split; [| by eexists]. intros (_ & _ & H & _).
    by destruct (confirmPassword form). }
  apply is_empty_false in E1, E2, E3.
  destruct (String.eqb (newPassword form) (confirmPassword form)) eqn:E4;
    simpl.
  2: { right. split; [| by eexists]. intros (_ & _ & _ & H & _).
       apply String.eqb_neq in E4. done. }
  apply String.eqb_eq in E4.
  destruct (String.length (newPassword form) <? 6)%nat eqn:E5.
  { right. split; [| by eexists]. intros (_ & _ & _ & _ & H).
    apply Nat.ltb_lt in E5. lia. }
  left. apply Nat.ltb_ge in E5. done.
Qed.

(** X26.  Nothing is sent for a form that fails a test.  When a field is
    empty, or the new password and its confirmation differ, or the new
    password has fewer than 6 characters, the handler shows one error
    toast and stops: no request, no change of the loading flag, whatever
    the network would answer. *)
Theorem invalid_form_stops form net :
  ¬ form_valid form →
  ∃ description,
    handleSubmit form net = [PreventDefault; error_toast description].
Proof.
  intros Hinv. by destruct (handleSubmit_cases form net) as [[? _] | [_ ?]].
Qed.

Lemma invalid_form_stops_witness :
  ∃ description,
    handleSubmit (mkForm "old-secret" "abc" "abc")
      (mkNetwork (VerifyResponse true) (ChangeResponse true JsonRejects))
    = [PreventDefault; error_toast description].
Proof.
  apply (invalid_form_stops (mkForm "old-secret" "abc" "abc")).
  intros (_ & _ & _ & _ & Hlen). simpl in Hlen. lia.
Defined.

(** X27.  The change request waits for the verification.  A request to
    [/api/auth/change-password] is made only for a valid form and after
    [/api/auth/verify] has answered ok, and it carries the current and the
    new password of the form. *)
Theorem change_request_after_verify form net current proposed :
  In (FetchChange current proposed) (handleSubmit form net) →
  form_valid form ∧ verifyReply net = VerifyResponse true ∧
  current = currentPassword form ∧ proposed = newPassword form.
Proof.
  destruct (handleSubmit_cases form net) as [[Hv ->] | [Hinv [d ->]]].
  2: { intros [H | [H | []]]; discriminate H. }
  intros [H | [H | Hin]]; [discriminate H | discriminate H |].
  apply in_app_or in Hin as [Hin | [H | []]]; [| discriminate H].
  unfold submit_try in Hin. destruct Hin as [H | Hin]; [discriminate H |].
  destruct (verifyReply net) as [| [|]].
  - destruct Hin as [H | []]. discriminate H.
  - unfold submit_change in Hin. destruct Hin as [[= <- <-] | Hin]; [done |].
    exfalso. destruct (changeReply net) as [| [|] [| message]];
      simpl in Hin; intuition discriminate.
  - destruct Hin as [H | [H | []]]; discriminate H.
Qed.

Lemma change_request_after_verify_witness :
  form_valid (mkForm "old-secret" "new-secret" "new-secret") ∧
  verifyReply (mkNetwork (VerifyResponse true) ChangeFetchRejects)
    = VerifyResponse true ∧
  "old-secret" = currentPassword (mkForm "old-secret" "new-secret" "new-secret") ∧
  "new-secret" = newPassword (mkForm "old-secret" "new-secret" "new-secret").
Proof.
  apply (change_request_after_verify
           (mkForm "old-secret" "new-secret" "new-secret")
           (mkNetwork (VerifyResponse true) ChangeFetchRejects)
           "old-secret" "new-secret").
  simpl. right. right. right. left. reflexivity.
Defined.

(** X28.  Success needs both answers.  The success toast is shown, each of
    the three fields is cleared and the dialog is closed, exactly when the
    form is valid and both requests were answered ok. *)
Theorem success_iff_both_ok form net :
  let success :=
    form_valid form ∧ verifyReply net = VerifyResponse true ∧
    ∃ body, changeReply net = ChangeResponse true body in
  (existsb is_success_toast (handleSubmit form net) = true ↔ success) ∧
  (In (SetCurrentPassword EmptyString) (handleSubmit form net) ↔ success) ∧
  (In (SetNewPassword EmptyString) (handleSubmit form net) ↔ success) ∧
  (In (SetConfirmPassword EmptyString) (handleSubmit form net) ↔ success) ∧
  (In (OnOpenChange false) (handleSubmit form net) ↔ success).
Proof.
  cbv zeta.
  destruct (handleSubmit_cases form net) as [[Hv ->] | [Hinv [d ->]]].
  2: { split_and!; (split; [| by intros (? & _)]); simpl; intros H;
         try discriminate H;
         repeat (destruct H as [H | H]; try discriminate H); done. }
  unfold submit_try, submit_change.
  destruct (verifyReply net) as [| [|]] eqn:Hverify.
  1, 3: split_and!;
        (split; [| intros (_ & Hno & _); discriminate Hno]); simpl;
        intros H; try discriminate H;
        repeat (destruct H as [H | H]; try discriminate H); done.
  destruct (changeReply net) as [| [|] body] eqn:Hchange.
  - split_and!;
      (split; [| intros (_ & _ & ? & Hno); discriminate Hno]); simpl;
      intros H; try discriminate H;
      repeat (destruct H as [H | H]; try discriminate H); done.
  - split_and!; (split; [intros _; eauto | intros _]); simpl; auto 10.
  - destruct body as [| message];
      (split_and!;
       (split; [| intros (_ & _ & ? & Hno); discriminate Hno]); simpl;
       intros H; try discriminate H;
       repeat (destruct H as [H | H]; try discriminate H); done).
Qed.

(** X29.  One toast per submit: on every path, whatever the form and the
    network, the handler shows exactly one toast. *)
Theorem one_toast_per_submit form net :
  length (filter (λ e, is_toast e = true) (handleSubmit form net)) = 1%nat.
Proof.
  destruct (handleSubmit_cases form net) as [[Hv ->] | [Hinv [d ->]]];
    [| done].
  unfold submit_try, submit_change.
  destruct (verifyReply net) as [| [|]];
    [| destruct (changeReply net) as [| [|] [| message]] |]; done.
Qed.

(** X30.  The loading flag is always released: whenever the handler sets
    the flag, its last effect is to clear it, also when a request fails or
    rejects; and it sets the flag exactly for a valid form. *)
Theorem loading_released form net :
  (In (SetIsLoading true) (handleSubmit form net) ↔ form_valid form) ∧
  (In (SetIsLoading true) (handleSubmit form net) →
   List.last (handleSubmit form net) PreventDefault = SetIsLoading false).
Proof.
  destruct (handleSubmit_cases form net) as [[Hv ->] | [Hinv [d ->]]].
  - split; [split; [done | intros _; right; by left] |]. intros _.
    change (PreventDefault :: SetIsLoading true ::
              submit_try form net ++ [SetIsLoading false])
      with ((PreventDefault :: SetIsLoading true :: submit_try form net)
              ++ [SetIsLoading false]).
    apply List.last_last.
  - split; [split; [| done] |]; intros [H | [H | []]]; discriminate H.
Qed.

Lemma loading_released_witness :
  List.last
    (handleSubmit (mkForm "old-secret" "new-secret" "new-secret")
       (mkNetwork VerifyFetchRejects ChangeFetchRejects))
    PreventDefault
  = SetIsLoading false.
Proof.
  apply (proj2 (loading_released
                  (mkForm "old-secret" "new-secret" "new-secret")
                  (mkNetwork VerifyFetchRejects ChangeFetchRejects))).
  simpl. right. left. reflexivity.
Defined.
